(** * The gRPC root-certificate accessor of Firestore

    A verification development for
    [Firestore/core/src/firebase/firestore/remote/grpc_root_certificate_finder_generated.cc]:

    <<
    std::string LoadGrpcRootCertificate() {
      return {reinterpret_cast<const char*>(grpc_root_certificates),
              grpc_root_certificates_size};
    }
    >>

    The function builds a [std::string] from a pointer into the static array
    [grpc_root_certificates] and the count [grpc_root_certificates_size].
    Both names are declared in [grpc_root_certificates_generated.h], which is
    produced at build time; here they are the variables of a section.

    Storage is modelled as a finite map from object addresses to the bytes of
    the object, so that aliasing between the static array and the buffers of
    the returned strings can be stated and excluded.  Reading outside the
    bounds of an object is undefined behaviour in C++; the model makes it an
    explicit failure ([None]).  [basic_string] describes what a call that
    returns has done; the two exceptions of the constructor, for an
    exhausted free store and for a count beyond [max_size], are added by
    [basic_string_impl]. *)

From Stdlib Require Import ZArith NArith Lia.
From Stdlib Require Import Strings.Byte.
From stdpp Require Import base option list gmap sets.

Local Open Scope nat_scope.

(** ** Object representation and the two character types *)

Module CharRep.

(** The value of a byte read through an lvalue of type [unsigned char]. *)
Definition uchar_value (b : byte) : Z := Z.of_N (Byte.to_N b).

(** The value of the same byte read through an lvalue of type [char];
    whether [char] is signed is implementation-defined. *)
Definition char_value (char_is_signed : bool) (b : byte) : Z :=
  if char_is_signed && (128 <=? uchar_value b)%Z
  then (uchar_value b - 256)%Z
  else uchar_value b.

(** The bit pattern (value modulo 2^8) of a [char] value. *)
Definition bit_pattern (c : Z) : Z := (c mod 256)%Z.

End CharRep.

(** ** Storage, pointers and process state *)

Inductive ctype := t_uchar | t_char.

(** A pointer names an object and an offset into it; its static type says
    through which character type the pointee is read. *)
Record ptr (t : ctype) := Ptr { p_obj : positive; p_off : nat }.
Arguments Ptr {t} _ _.
Arguments p_obj {t} _.
Arguments p_off {t} _.

Inductive io_event :=
| ev_file (path : list byte)
| ev_network (payload : list byte).

(** The state of the process: every live object with its bytes, and the log
    of input/output performed so far (most recent first). *)
Record process := Process {
  mem : gmap positive (list byte);
  io_log : list io_event
}.

(** Array-to-pointer conversion of a [const unsigned char[]] object. *)
Definition array_to_pointer (a : positive) : ptr t_uchar := Ptr a 0.

(** [reinterpret_cast<const char*>]: same address, other pointee type. *)
Definition reinterpret_cast_const_char (p : ptr t_uchar) : ptr t_char :=
  Ptr (p_obj p) (p_off p).

Definition ptr_add {t} (p : ptr t) (i : nat) : ptr t :=
  Ptr (p_obj p) (p_off p + i).

(** The byte a pointer designates, if it points into a live object. *)
Definition deref {t} (m : gmap positive (list byte)) (p : ptr t) : option byte :=
  match m !! p_obj p with
  | Some o => o !! p_off p
  | None => None
  end.

(** The typed value read through a pointer. *)
Definition load (char_is_signed : bool) {t} (m : gmap positive (list byte))
    (p : ptr t) : option Z :=
  match deref m p with
  | Some b =>
      Some (match t with
            | t_uchar => CharRep.uchar_value b
            | t_char => CharRep.char_value char_is_signed b
            end)
  | None => None
  end.

(** The range [[s, s + n)], when it lies inside the object [s] points into. *)
Definition read_range (m : gmap positive (list byte)) (s : ptr t_char) (n : nat)
  : option (list byte) :=
  match m !! p_obj s with
  | Some o =>
      if decide (p_off s + n ≤ length o)
      then Some (take n (drop (p_off s) o))
      else None
  | None => None
  end.

(** [std::string(const char* s, size_type n)]: a new string whose initial
    value is the range [[s, s + n)].  The string owns a buffer at an address
    no live object has; the function returns that address together with the
    state in which the buffer exists.  The buffer is modelled by the [n]
    characters of the string; the terminating zero that [c_str] shows after
    them is not part of its value. *)
Definition basic_string (s : ptr t_char) (n : N) (σ : process)
  : option (positive * process) :=
  match read_range (mem σ) s (N.to_nat n) with
  | Some chars =>
      let h := fresh (dom (mem σ)) in
      Some (h, Process (<[h := chars]> (mem σ)) (io_log σ))
  | None => None
  end.

(** The characters of a string object. *)
Definition string_chars (σ : process) (h : positive) : option (list byte) :=
  mem σ !! h.

(** A caller changing an object it holds (element assignment, [append],
    [clear], ...): the bytes of [h] become [f] of what they were. *)
Definition mutate (h : positive) (f : list byte → list byte) (σ : process)
  : process :=
  Process (alter f h (mem σ)) (io_log σ).

(** ** The accessor *)

Section Remote.

(** [extern const unsigned char grpc_root_certificates[]]: the address of
    the static array. *)
Variable grpc_root_certificates : positive.

(** [extern const size_t grpc_root_certificates_size]. *)
Variable grpc_root_certificates_size : N.

Definition LoadGrpcRootCertificate (σ : process) : option (positive * process) :=
  basic_string
    (reinterpret_cast_const_char (array_to_pointer grpc_root_certificates))
    grpc_root_certificates_size σ.

(** The static array holds [data] in state [σ]. *)
Definition bundle_is (data : list byte) (σ : process) : Prop :=
  mem σ !! grpc_root_certificates = Some data.

(** The build-time precondition: the length constant is the length of the
    array. *)
Definition bundle_ok (data : list byte) (σ : process) : Prop :=
  bundle_is data σ ∧ N.of_nat (length data) = grpc_root_certificates_size.

End Remote.

(** ** The embedded data and the life of the process *)

(** Modelled from the spec: the build-time generator and the file it writes
    ([grpc_root_certificates_generated.h] with the definition of the array),
    which are not part of the sources at hand.  The generator "produces the
    compiled byte array and its length constant from a source PEM bundle";
    the length is "an integer byte count, exactly matching the byte
    sequence". *)
Record bundle_image := BundleImage {
  image_data : list byte;
  image_size : N
}.

Definition generate_bundle (pem : list byte) : bundle_image :=
  BundleImage pem (N.of_nat (length pem)).

(** Modelled from the spec: the bundle is "statically-initialized" and
    "created at program/library load": the process starts with the array at
    its address [g], among whatever other objects it has. *)
Definition process_start (g : positive) (img : bundle_image)
    (others : gmap positive (list byte)) : process :=
  Process (<[g := image_data img]> others) [].

(** What the program does during its life, as far as storage and the log are
    concerned: it calls the accessor, changes objects, performs input and
    output. *)
Inductive action :=
| act_call
| act_write (a : positive) (f : list byte → list byte)
| act_io (e : io_event).

(** Modelled from the spec: the array is "immutable" ([const] in the absent
    declaration), so a write to it is undefined behaviour. *)
Definition perform (g : positive) (size : N) (a : action) (σ : process)
  : option process :=
  match a with
  | act_call => snd <$> LoadGrpcRootCertificate g size σ
  | act_write a f => if decide (a = g) then None else Some (mutate a f σ)
  | act_io e => Some (Process (mem σ) (e :: io_log σ))
  end.

Fixpoint run (g : positive) (size : N) (acts : list action) (σ : process)
  : option process :=
  match acts with
  | [] => Some σ
  | a :: rest =>
      match perform g size a σ with
      | Some σ' => run g size rest σ'
      | None => None
      end
  end.

Definition respects_const (g : positive) (a : action) : Prop :=
  match a with
  | act_write a _ => a ≠ g
  | _ => True
  end.

(** ** Calls from several threads *)

(** A thread that calls the accessor: it is at the call, or it has obtained
    the buffer [h] of the string under construction and copied [i]
    characters into it, or the call has returned the string [h]. *)
Inductive thread :=
| at_call
| copying (h : positive) (i : nat)
| returned (h : positive).

(** One step of a thread on the shared storage.  The constructor of the
    string obtains a buffer for [size] characters and copies the range
    character by character, reading through the converted pointer; a read
    outside the array is undefined behaviour.  What a new buffer holds
    before it is written is indeterminate; the model takes zero bytes.  A
    thread whose call has returned stays as it is. *)
Definition thread_step (g : positive) (size : N) (t : thread) (σ : process)
  : option (thread * process) :=
  match t with
  | at_call =>
      let h := fresh (dom (mem σ)) in
      Some (copying h 0,
            Process (<[h := replicate (N.to_nat size) x00]> (mem σ)) (io_log σ))
  | copying h i =>
      if decide (i < N.to_nat size) then
        match deref (mem σ)
                (ptr_add (reinterpret_cast_const_char (array_to_pointer g)) i),
              mem σ !! h with
        | Some b, Some buf =>
            Some (copying h (S i),
                  Process (<[h := <[i := b]> buf]> (mem σ)) (io_log σ))
        | _, _ => None
        end
      else Some (returned h, σ)
  | returned h => Some (returned h, σ)
  end.

Record config := Config {
  threads : list thread;
  shared : process
}.

(** The scheduler lets thread [k] take one step. *)
Definition schedule_step (g : positive) (size : N) (k : nat) (c : config)
  : option config :=
  match threads c !! k with
  | Some t =>
      match thread_step g size t (shared c) with
      | Some (t', σ') => Some (Config (<[k := t']> (threads c)) σ')
      | None => None
      end
  | None => None
  end.

Fixpoint run_schedule (g : positive) (size : N) (sched : list nat) (c : config)
  : option config :=
  match sched with
  | [] => Some c
  | k :: rest =>
      match schedule_step g size k c with
      | Some c' => run_schedule g size rest c'
      | None => None
      end
  end.

(** [n] threads, all about to call the accessor. *)
Definition start_threads (n : nat) (σ : process) : config :=
  Config (replicate n at_call) σ.

(** The number of steps a thread has taken towards its return. *)
Definition progress (size : N) (t : thread) : nat :=
  match t with
  | at_call => 0
  | copying _ i => S i
  | returned _ => N.to_nat size + 2
  end.

Definition buffer_of (t : thread) : option positive :=
  match t with
  | at_call => None
  | copying h _ | returned h => Some h
  end.

(** ** The invariant of interleaved calls *)

(** How often the scheduler picks thread [k]. *)
Fixpoint turns (k : nat) (sched : list nat) : nat :=
  match sched with
  | [] => 0
  | j :: rest => (if decide (j = k) then 1 else 0) + turns k rest
  end.

(** What a thread can rely on: its buffer is not the static array, has room
    for the whole range, and agrees with the array on what was copied. *)
Definition thread_ok (g : positive) (size : N) (data : list byte)
    (m : gmap positive (list byte)) (t : thread) : Prop :=
  match t with
  | at_call => True
  | copying h i =>
      h ≠ g ∧ i ≤ N.to_nat size
      ∧ ∃ buf, m !! h = Some buf ∧ length buf = N.to_nat size
               ∧ take i buf = take i data
  | returned h => h ≠ g ∧ m !! h = Some (take (N.to_nat size) data)
  end.

(** The invariant of the interleaving: the array holds its data, every
    thread is in order, and no two threads share a buffer. *)
Definition interleaving_inv (g : positive) (size : N) (data : list byte)
    (c : config) : Prop :=
  mem (shared c) !! g = Some data
  ∧ (∀ k t, threads c !! k = Some t → thread_ok g size data (mem (shared c)) t)
  ∧ (∀ j k tj tk h, j ≠ k →
       threads c !! j = Some tj → threads c !! k = Some tk →
       buffer_of tj = Some h → buffer_of tk ≠ Some h).

(** ** A small process used to run the definitions *)

Module Demo.

(** A dash, a zero byte, [0xff] and a line feed. *)
Definition data : list byte := [x2d; x00; xff; x0a].

Definition certs : positive := 1%positive.

Definition s0 : process := Process {[ certs := data ]} [].

(** The same array next to an unrelated object and after some output. *)
Definition s1 : process :=
  Process (<[7%positive := [x41]]> {[ certs := data ]}) [ev_file [x2f]].

Definition empty : process := Process {[ certs := [] ]} [].

End Demo.

(** ** Calls in a row *)

(** [n] calls of the accessor one after the other; the strings they return,
    first call first, and the state after the last. *)
Fixpoint load_many (g : positive) (size : N) (n : nat) (σ : process)
  : option (list positive * process) :=
  match n with
  | 0 => Some ([], σ)
  | S n' =>
      match LoadGrpcRootCertificate g size σ with
      | Some (h, σ1) =>
          match load_many g size n' σ1 with
          | Some (hs, σ') => Some (h :: hs, σ')
          | None => None
          end
      | None => None
      end
  end.

(** ** The limits of the library implementation *)

(** The two exceptions the constructor of [std::string] can throw. *)
Inductive exception := bad_alloc | length_error.

(** How a call ends: it returns a string and the state in which the string
    exists, or it throws and leaves a state, or its behaviour is
    undefined. *)
Inductive outcome :=
| Returned (h : positive) (σ' : process)
| Threw (e : exception) (σ' : process)
| Undefined.

(** What the implementation of the library decides and the source cannot
    see: the longest string it supports, and whether the free store can
    provide, in a given state, the buffer of a string of [n] characters (an
    implementation that keeps short strings inside the string object always
    can for those). *)
Record implementation := Implementation {
  max_size : N;
  can_allocate : process → N → bool
}.

(** [std::string(const char* s, size_type n)] with its limits: the count is
    checked against [max_size] first ([std::length_error]), then the buffer
    is obtained ([std::bad_alloc] when the store cannot provide it), then
    the range is copied as [basic_string] describes.  An exception leaves
    the state as it was. *)
Definition basic_string_impl (impl : implementation) (s : ptr t_char) (n : N)
    (σ : process) : outcome :=
  if (max_size impl <? n)%N then Threw length_error σ
  else if can_allocate impl σ n then
    match basic_string s n σ with
    | Some (h, σ') => Returned h σ'
    | None => Undefined
    end
  else Threw bad_alloc σ.

(** The accessor on an implementation with these limits. *)
Definition LoadGrpcRootCertificate_impl (impl : implementation)
    (grpc_root_certificates : positive) (grpc_root_certificates_size : N)
    (σ : process) : outcome :=
  basic_string_impl impl
    (reinterpret_cast_const_char (array_to_pointer grpc_root_certificates))
    grpc_root_certificates_size σ.

Module DemoLimits.

(** Strings of up to [2^62 - 1] characters and a store with room for any
    buffer. *)
Definition roomy : implementation :=
  Implementation 4611686018427387903 (λ _ _, true).

(** The same library when the store has three bytes left. *)
Definition exhausted : implementation :=
  Implementation 4611686018427387903 (λ _ n, (n <=? 3)%N).

(** A library that supports strings of at most three characters. *)
Definition tiny : implementation := Implementation 3 (λ _ _, true).

End DemoLimits.

(** ** Storage lemmas *)

Lemma fresh_not_live (m : gmap positive (list byte)) : m !! fresh (dom m) = None.
Proof. apply not_elem_of_dom, is_fresh. Qed.

Lemma fresh_neq_live (m : gmap positive (list byte)) (a : positive) (o : list byte) :
  m !! a = Some o → fresh (dom m) ≠ a.
Proof. intros Ha Heq. rewrite <- Heq, fresh_not_live in Ha. discriminate. Qed.

Lemma read_range_in_bounds (m : gmap positive (list byte)) (s : ptr t_char)
    (n : nat) (o : list byte) :
  m !! p_obj s = Some o → p_off s + n ≤ length o →
  read_range m s n = Some (take n (drop (p_off s) o)).
Proof.
  intros Ho Hn. unfold read_range. rewrite Ho.
  destruct (decide (p_off s + n ≤ length o)); [reflexivity | contradiction].
Qed.

Lemma read_range_inv (m : gmap positive (list byte)) (s : ptr t_char)
    (n : nat) (chars : list byte) :
  read_range m s n = Some chars →
  ∃ o, m !! p_obj s = Some o ∧ p_off s + n ≤ length o
       ∧ chars = take n (drop (p_off s) o).
Proof.
  unfold read_range. destruct (m !! p_obj s) as [o|]; [|discriminate].
  destruct (decide (p_off s + n ≤ length o)); [|discriminate].
  intros [= <-]. eauto.
Qed.

Lemma read_range_length (m : gmap positive (list byte)) (s : ptr t_char)
    (n : nat) (chars : list byte) :
  read_range m s n = Some chars → length chars = n.
Proof.
  intros (o & _ & Hn & ->)%read_range_inv.
  rewrite length_take, length_drop. lia.
Qed.

Section RemoteFacts.

Variable g : positive.
Variable size : N.

Local Abbreviation Load := (LoadGrpcRootCertificate g size).

(** What a call computes when the range lies inside the array. *)
Lemma Load_in_bounds (σ : process) (data : list byte) :
  bundle_is g data σ → N.to_nat size ≤ length data →
  Load σ = Some (fresh (dom (mem σ)),
                 Process (<[fresh (dom (mem σ)) := take (N.to_nat size) data]> (mem σ))
                         (io_log σ)).
Proof.
  intros Hg Hn. unfold LoadGrpcRootCertificate, basic_string.
  rewrite (read_range_in_bounds _ _ _ data); simpl; [reflexivity | exact Hg | lia].
Qed.

(** Every call that returns read a range inside the array. *)
Lemma Load_inv (σ σ' : process) (h : positive) :
  Load σ = Some (h, σ') →
  ∃ data, bundle_is g data σ ∧ N.to_nat size ≤ length data
          ∧ h = fresh (dom (mem σ))
          ∧ σ' = Process (<[h := take (N.to_nat size) data]> (mem σ)) (io_log σ).
Proof.
  unfold LoadGrpcRootCertificate, basic_string.
  destruct (read_range _ _ _) as [chars|] eqn:Hr; [|discriminate].
  intros [= <- <-].
  apply read_range_inv in Hr as (o & Ho & Hn & ->). simpl in *.
  exists o. repeat split; [exact Ho | lia].
Qed.

(** Reading past the end of the array is the one failure of the model. *)
Lemma Load_out_of_bounds (σ : process) (data : list byte) :
  bundle_is g data σ → length data < N.to_nat size → Load σ = None.
Proof.
  intros Hg Hn. unfold LoadGrpcRootCertificate, basic_string, read_range.
  simpl. unfold bundle_is in Hg. rewrite Hg.
  case_decide; [lia | reflexivity].
Qed.

Lemma bundle_ok_in_bounds (σ : process) (data : list byte) :
  bundle_ok g size data σ →
  bundle_is g data σ ∧ N.to_nat size = length data.
Proof. intros [Hg Hn]. split; [exact Hg | lia]. Qed.

(** A call leaves every object that was live before it as it was. *)
Lemma Load_frame (σ σ' : process) (h a : positive) (o : list byte) :
  Load σ = Some (h, σ') → mem σ !! a = Some o →
  h ≠ a ∧ mem σ' !! a = Some o.
Proof.
  intros (data & _ & _ & -> & ->)%Load_inv Ha. simpl.
  pose proof (fresh_neq_live _ _ _ Ha) as Hne.
  split; [exact Hne|]. rewrite lookup_insert_ne; [exact Ha | exact Hne].
Qed.

Lemma Load_result (σ σ' : process) (h : positive) :
  Load σ = Some (h, σ') →
  ∃ data, bundle_is g data σ ∧ N.to_nat size ≤ length data
          ∧ string_chars σ' h = Some (take (N.to_nat size) data).
Proof.
  intros (data & Hg & Hn & -> & ->)%Load_inv.
  exists data. repeat split; [exact Hg | exact Hn |].
  unfold string_chars. simpl. apply lookup_insert_eq.
Qed.

End RemoteFacts.

(** ** Character representation lemmas *)

Lemma uchar_value_range (b : byte) :
  (0 ≤ CharRep.uchar_value b < 256)%Z.
Proof.
  unfold CharRep.uchar_value. pose proof (Byte.to_N_bounded b). lia.
Qed.

(** Reading a byte as [char] and reading it as [unsigned char] give values
    with one bit pattern. *)
Lemma char_value_bit_pattern (char_is_signed : bool) (b : byte) :
  CharRep.bit_pattern (CharRep.char_value char_is_signed b)
  = CharRep.uchar_value b.
Proof.
  pose proof (uchar_value_range b) as Hr.
  unfold CharRep.bit_pattern, CharRep.char_value.
  destruct char_is_signed; simpl.
  - destruct (Z.leb_spec 128 (CharRep.uchar_value b)).
    + symmetry. apply (Z.mod_unique_pos _ _ (-1)); lia.
    + apply Z.mod_small; lia.
  - apply Z.mod_small; lia.
Qed.

Lemma char_value_range (char_is_signed : bool) (b : byte) :
  (if char_is_signed
   then -128 ≤ CharRep.char_value true b < 128
   else 0 ≤ CharRep.char_value false b < 256)%Z.
Proof.
  pose proof (uchar_value_range b) as Hr.
  unfold CharRep.char_value. destruct char_is_signed; simpl; [|lia].
  destruct (Z.leb_spec 128 (CharRep.uchar_value b)); lia.
Qed.

Lemma load_char_at (char_is_signed : bool) (m : gmap positive (list byte))
    (h : positive) (o : list byte) (i : nat) (b : byte) :
  m !! h = Some o → o !! i = Some b →
  load char_is_signed m (ptr_add (@Ptr t_char h 0) i)
  = Some (CharRep.char_value char_is_signed b).
Proof.
  intros Hh Hi. unfold load, deref. simpl. rewrite Hh, Hi. reflexivity.
Qed.

Lemma load_uchar_at (char_is_signed : bool) (m : gmap positive (list byte))
    (a : positive) (o : list byte) (i : nat) (b : byte) :
  m !! a = Some o → o !! i = Some b →
  load char_is_signed m (ptr_add (array_to_pointer a) i)
  = Some (CharRep.uchar_value b).
Proof.
  intros Ha Hi. unfold load, deref. simpl. rewrite Ha, Hi. reflexivity.
Qed.

Example Load_demo :
  LoadGrpcRootCertificate Demo.certs 4 Demo.s0
  = Some (2%positive,
          Process (<[2%positive := Demo.data]> {[ Demo.certs := Demo.data ]}) []).
Proof. vm_compute. reflexivity. Qed.

Example Load_demo_prefix :
  (LoadGrpcRootCertificate Demo.certs 2 Demo.s0
     ≫= λ r, string_chars r.2 r.1) = Some [x2d; x00].
Proof. vm_compute. reflexivity. Qed.

Example Load_demo_overrun :
  LoadGrpcRootCertificate Demo.certs 5 Demo.s0 = None.
Proof. vm_compute. reflexivity. Qed.

(** ** The contract of the accessor *)

(** C1. Whenever the range [[0, grpc_root_certificates_size)] lies inside the
    static array (in particular when the constant is the length of the
    array), a call returns a string of exactly
    [grpc_root_certificates_size] bytes. *)
Theorem LoadGrpcRootCertificate_length
    (g : positive) (size : N) (σ : process) (data : list byte) :
  bundle_is g data σ → N.to_nat size ≤ length data →
  ∃ h σ' s, LoadGrpcRootCertificate g size σ = Some (h, σ')
            ∧ string_chars σ' h = Some s
            ∧ N.of_nat (length s) = size.
Proof.
  intros Hg Hn. eexists _, _, _. split; [apply Load_in_bounds; eassumption|].
  split; [apply lookup_insert_eq|].
  rewrite length_take. lia.
Qed.

Lemma LoadGrpcRootCertificate_length_witness :
  bundle_is Demo.certs Demo.data Demo.s1 ∧ N.to_nat 3 ≤ length Demo.data
  ∧ ∃ h σ' s, LoadGrpcRootCertificate Demo.certs 3 Demo.s1 = Some (h, σ')
              ∧ string_chars σ' h = Some s
              ∧ N.of_nat (length s) = 3%N.
Proof.
  assert (H1 : bundle_is Demo.certs Demo.data Demo.s1) by reflexivity.
  assert (H2 : N.to_nat 3 ≤ length Demo.data) by (vm_compute; lia).
  split; [exact H1|]. split; [exact H2|].
  exact (LoadGrpcRootCertificate_length Demo.certs 3 Demo.s1 Demo.data H1 H2).
Defined.

(** C2. When the length constant is the length of the static array, the
    string a call returns holds the bytes of the array, in order and
    unchanged. *)
Theorem LoadGrpcRootCertificate_content
    (g : positive) (size : N) (σ : process) (data : list byte) :
  bundle_ok g size data σ →
  ∃ h σ', LoadGrpcRootCertificate g size σ = Some (h, σ')
          ∧ string_chars σ' h = Some data.
Proof.
  intros [Hg Hn]%bundle_ok_in_bounds. eexists _, _.
  split; [apply Load_in_bounds; [eassumption | lia]|].
  unfold string_chars. simpl. rewrite lookup_insert_eq, Hn, firstn_all.
  reflexivity.
Qed.

Lemma LoadGrpcRootCertificate_content_witness :
  bundle_ok Demo.certs 4 Demo.data Demo.s1
  ∧ ∃ h σ', LoadGrpcRootCertificate Demo.certs 4 Demo.s1 = Some (h, σ')
            ∧ string_chars σ' h = Some Demo.data.
Proof.
  assert (H : bundle_ok Demo.certs 4 Demo.data Demo.s1) by (split; reflexivity).
  split; [exact H|].
  exact (LoadGrpcRootCertificate_content Demo.certs 4 Demo.s1 Demo.data H).
Defined.

(** C3. The returned bytes depend on the embedded data only: in any two
    states of the process whose static array holds the same data, the two
    calls return strings with the same bytes.  A call keeps the array as it
    is, so the second state may be the one the first call ends in. *)
Theorem LoadGrpcRootCertificate_deterministic
    (g : positive) (size : N) (σa σb : process) (data : list byte) :
  bundle_is g data σa → bundle_is g data σb → N.to_nat size ≤ length data →
  ∃ ha σa' hb σb' s,
    LoadGrpcRootCertificate g size σa = Some (ha, σa')
    ∧ LoadGrpcRootCertificate g size σb = Some (hb, σb')
    ∧ string_chars σa' ha = Some s
    ∧ string_chars σb' hb = Some s
    ∧ bundle_is g data σa'.
Proof.
  intros Ha Hb Hn.
  pose proof (Load_in_bounds g size σa data Ha Hn) as Ea.
  pose proof (Load_in_bounds g size σb data Hb Hn) as Eb.
  eexists _, _, _, _, _. split; [exact Ea|]. split; [exact Eb|].
  split; [apply lookup_insert_eq|]. split; [apply lookup_insert_eq|].
  exact (proj2 (Load_frame g size _ _ _ _ _ Ea Ha)).
Qed.

Lemma LoadGrpcRootCertificate_deterministic_witness :
  bundle_is Demo.certs Demo.data Demo.s0
  ∧ bundle_is Demo.certs Demo.data Demo.s1
  ∧ N.to_nat 4 ≤ length Demo.data
  ∧ ∃ ha σa' hb σb' s,
      LoadGrpcRootCertificate Demo.certs 4 Demo.s0 = Some (ha, σa')
      ∧ LoadGrpcRootCertificate Demo.certs 4 Demo.s1 = Some (hb, σb')
      ∧ string_chars σa' ha = Some s
      ∧ string_chars σb' hb = Some s
      ∧ bundle_is Demo.certs Demo.data σa'.
Proof.
  assert (H0 : bundle_is Demo.certs Demo.data Demo.s0) by reflexivity.
  assert (H1 : bundle_is Demo.certs Demo.data Demo.s1) by reflexivity.
  assert (H2 : N.to_nat 4 ≤ length Demo.data) by (vm_compute; lia).
  split; [exact H0|]. split; [exact H1|]. split; [exact H2|].
  exact (LoadGrpcRootCertificate_deterministic
           Demo.certs 4 Demo.s0 Demo.s1 Demo.data H0 H1 H2).
Defined.

(** The accessor on an implementation with limits, under the build-time
    precondition: which of the three outcomes it has. *)
Lemma LoadGrpcRootCertificate_impl_cases
    (impl : implementation) (g : positive) (size : N) (σ : process)
    (data : list byte) :
  bundle_ok g size data σ →
  LoadGrpcRootCertificate_impl impl g size σ
  = if (max_size impl <? size)%N then Threw length_error σ
    else if can_allocate impl σ size
         then Returned (fresh (dom (mem σ)))
                (Process (<[fresh (dom (mem σ)) := data]> (mem σ)) (io_log σ))
         else Threw bad_alloc σ.
Proof.
  intros [Hg Hn]%bundle_ok_in_bounds.
  unfold LoadGrpcRootCertificate_impl, basic_string_impl.
  destruct (max_size impl <? size)%N; [reflexivity|].
  destruct (can_allocate impl σ size); [|reflexivity].
  fold (LoadGrpcRootCertificate g size σ).
  rewrite (Load_in_bounds g size σ data Hg) by lia.
  rewrite Hn, firstn_all. reflexivity.
Qed.

Example Load_impl_demo :
  LoadGrpcRootCertificate_impl DemoLimits.roomy Demo.certs 4 Demo.s0
  = Returned 2%positive
      (Process (<[2%positive := Demo.data]> {[ Demo.certs := Demo.data ]}) []).
Proof. vm_compute. reflexivity. Qed.

Example Load_impl_demo_length_error :
  LoadGrpcRootCertificate_impl DemoLimits.tiny Demo.certs 4 Demo.s0
  = Threw length_error Demo.s0.
Proof. vm_compute. reflexivity. Qed.

(** Without the precondition the read can leave the array. *)
Example Load_impl_demo_overrun :
  LoadGrpcRootCertificate_impl DemoLimits.roomy Demo.certs 5 Demo.s0 = Undefined.
Proof. vm_compute. reflexivity. Qed.

(** C4, as stated, fails: the build-time precondition holds and the call
    still ends in an exception, [std::bad_alloc], when the free store
    cannot provide the buffer of the string. *)
Lemma LoadGrpcRootCertificate_never_fails_counterexample :
  bundle_ok Demo.certs 4 Demo.data Demo.s0
  ∧ LoadGrpcRootCertificate_impl DemoLimits.exhausted Demo.certs 4 Demo.s0
    = Threw bad_alloc Demo.s0
  ∧ ¬ ∃ h σ', LoadGrpcRootCertificate_impl DemoLimits.exhausted
                Demo.certs 4 Demo.s0 = Returned h σ'.
Proof.
  assert (E : LoadGrpcRootCertificate_impl DemoLimits.exhausted
                Demo.certs 4 Demo.s0 = Threw bad_alloc Demo.s0)
    by (vm_compute; reflexivity).
  split; [split; reflexivity|]. split; [exact E|].
  intros (h & σ' & E'). rewrite E in E'. discriminate.
Qed.

(** C4, amended.  Under the build-time precondition (the length constant is
    the length of the static array) a call never reads outside the array,
    and it ends in exactly one of three ways.  When the length is within
    [max_size] and the free store provides the buffer, it returns a string
    at an address that was not in use, holding the bytes of the array.
    When the length exceeds [max_size] it throws [std::length_error]; when
    the store cannot provide the buffer it throws [std::bad_alloc]; either
    exception leaves the state of the process as it was.  The accessor has
    no error branch or error code of its own. *)
Theorem LoadGrpcRootCertificate_impl_outcomes
    (impl : implementation) (g : positive) (size : N) (σ : process)
    (data : list byte) :
  bundle_ok g size data σ →
  LoadGrpcRootCertificate_impl impl g size σ ≠ Undefined
  ∧ ((size ≤ max_size impl)%N → can_allocate impl σ size = true →
     ∃ h σ', LoadGrpcRootCertificate_impl impl g size σ = Returned h σ'
             ∧ LoadGrpcRootCertificate g size σ = Some (h, σ')
             ∧ mem σ !! h = None
             ∧ string_chars σ' h = Some data)
  ∧ ((max_size impl < size)%N →
     LoadGrpcRootCertificate_impl impl g size σ = Threw length_error σ)
  ∧ ((size ≤ max_size impl)%N → can_allocate impl σ size = false →
     LoadGrpcRootCertificate_impl impl g size σ = Threw bad_alloc σ)
  ∧ (∀ e σ', LoadGrpcRootCertificate_impl impl g size σ = Threw e σ' →
       σ' = σ
       ∧ (e = length_error ∧ (max_size impl < size)%N
          ∨ e = bad_alloc ∧ can_allocate impl σ size = false)).
Proof.
  intros Hok.
  pose proof (LoadGrpcRootCertificate_impl_cases impl g size σ data Hok) as E.
  pose proof Hok as [Hg Hn]%bundle_ok_in_bounds.
  destruct (N.ltb_spec (max_size impl) size) as [Hlt|Hle];
    destruct (can_allocate impl σ size) eqn:Hc; rewrite E.
  all: split; [discriminate|].
  all: split; [intros H1 H2; try lia; try discriminate|].
  all: try (eexists _, _; split; [reflexivity|];
            split; [rewrite (Load_in_bounds g size σ data Hg) by lia;
                    rewrite Hn, firstn_all; reflexivity|];
            split; [apply fresh_not_live | apply lookup_insert_eq]).
  all: split; [intros H1; try lia; try reflexivity|].
  all: split; [intros H1 H2; try lia; try discriminate; try reflexivity|].
  all: intros e σ' [= <- <-] || intros e σ' [=].
  all: split; [reflexivity|]; auto.
Qed.

Lemma LoadGrpcRootCertificate_impl_outcomes_witness :
  bundle_ok Demo.certs 4 Demo.data Demo.s1
  ∧ LoadGrpcRootCertificate_impl DemoLimits.roomy Demo.certs 4 Demo.s1
    ≠ Undefined
  ∧ ((4 ≤ max_size DemoLimits.roomy)%N →
     can_allocate DemoLimits.roomy Demo.s1 4 = true →
     ∃ h σ', LoadGrpcRootCertificate_impl DemoLimits.roomy Demo.certs 4 Demo.s1
             = Returned h σ'
             ∧ LoadGrpcRootCertificate Demo.certs 4 Demo.s1 = Some (h, σ')
             ∧ mem Demo.s1 !! h = None
             ∧ string_chars σ' h = Some Demo.data)
  ∧ ((max_size DemoLimits.roomy < 4)%N →
     LoadGrpcRootCertificate_impl DemoLimits.roomy Demo.certs 4 Demo.s1
     = Threw length_error Demo.s1)
  ∧ ((4 ≤ max_size DemoLimits.roomy)%N →
     can_allocate DemoLimits.roomy Demo.s1 4 = false →
     LoadGrpcRootCertificate_impl DemoLimits.roomy Demo.certs 4 Demo.s1
     = Threw bad_alloc Demo.s1)
  ∧ (∀ e σ',
       LoadGrpcRootCertificate_impl DemoLimits.roomy Demo.certs 4 Demo.s1
       = Threw e σ' →
       σ' = Demo.s1
       ∧ (e = length_error ∧ (max_size DemoLimits.roomy < 4)%N
          ∨ e = bad_alloc ∧ can_allocate DemoLimits.roomy Demo.s1 4 = false)).
Proof.
  assert (H : bundle_ok Demo.certs 4 Demo.data Demo.s1) by (split; reflexivity).
  split; [exact H|].
  exact (LoadGrpcRootCertificate_impl_outcomes
           DemoLimits.roomy Demo.certs 4 Demo.s1 Demo.data H).
Defined.

(** ** Ownership of the returned string *)

Lemma mutate_other (h a : positive) (f : list byte → list byte) (σ : process) :
  h ≠ a → mem (mutate h f σ) !! a = mem σ !! a.
Proof. intros Hne. simpl. apply lookup_alter_ne, Hne. Qed.

Lemma mutate_self (h : positive) (f : list byte → list byte) (σ : process)
    (s : list byte) :
  mem σ !! h = Some s → mem (mutate h f σ) !! h = Some (f s).
Proof. intros Hh. simpl. rewrite lookup_alter_eq, Hh. reflexivity. Qed.

(** C5. Each call returns a string with a buffer of its own.  Take two calls
    in a row, returning [h1] and [h2].  Whatever a caller then does to the
    bytes of one of the two strings, the static array and the other string
    keep their bytes, and a call made after the change still returns the
    bytes of the array. *)
Theorem LoadGrpcRootCertificate_fresh_copy
    (g : positive) (size : N) (σ : process) (data : list byte)
    (f : list byte → list byte) :
  bundle_is g data σ → N.to_nat size ≤ length data →
  ∃ h1 σ1 h2 σ2 s,
    LoadGrpcRootCertificate g size σ = Some (h1, σ1)
    ∧ LoadGrpcRootCertificate g size σ1 = Some (h2, σ2)
    ∧ h1 ≠ g ∧ h2 ≠ g ∧ h1 ≠ h2
    ∧ string_chars σ2 h1 = Some s ∧ string_chars σ2 h2 = Some s
    ∧ (string_chars (mutate h1 f σ2) h1 = Some (f s)
       ∧ string_chars (mutate h1 f σ2) h2 = Some s
       ∧ bundle_is g data (mutate h1 f σ2))
    ∧ (string_chars (mutate h2 f σ2) h2 = Some (f s)
       ∧ string_chars (mutate h2 f σ2) h1 = Some s
       ∧ bundle_is g data (mutate h2 f σ2))
    ∧ ∃ h3 σ4, LoadGrpcRootCertificate g size (mutate h1 f σ2) = Some (h3, σ4)
               ∧ string_chars σ4 h3 = Some s.
Proof.
  intros Hg Hn.
  pose proof (Load_in_bounds g size σ data Hg Hn) as E1.
  set (h1 := fresh (dom (mem σ))) in *.
  set (s := take (N.to_nat size) data) in *.
  set (σ1 := Process (<[h1 := s]> (mem σ)) (io_log σ)) in *.
  destruct (Load_frame g size _ _ _ _ _ E1 Hg) as [Hne1 Hg1].
  assert (Hs1 : mem σ1 !! h1 = Some s) by apply lookup_insert_eq.
  pose proof (Load_in_bounds g size σ1 data Hg1 Hn) as E2.
  set (h2 := fresh (dom (mem σ1))) in *. fold s in E2.
  set (σ2 := Process (<[h2 := s]> (mem σ1)) (io_log σ1)) in *.
  destruct (Load_frame g size _ _ _ _ _ E2 Hg1) as [Hne2 Hg2].
  destruct (Load_frame g size _ _ _ _ _ E2 Hs1) as [Hne21 Hs12].
  assert (Hs2 : mem σ2 !! h2 = Some s) by apply lookup_insert_eq.
  assert (Hg3 : bundle_is g data (mutate h1 f σ2)).
  { unfold bundle_is. rewrite mutate_other; [exact Hg2 | exact Hne1]. }
  exists h1, σ1, h2, σ2, s.
  split; [exact E1|]. split; [exact E2|].
  split; [exact Hne1|]. split; [exact Hne2|].
  split; [congruence|]. split; [exact Hs12|]. split; [exact Hs2|].
  split; [|split].
  - split; [apply mutate_self, Hs12|].
    split; [|exact Hg3].
    unfold string_chars. rewrite mutate_other; [exact Hs2 | congruence].
  - split; [apply mutate_self, Hs2|].
    split; [unfold string_chars; rewrite mutate_other; [exact Hs12 | exact Hne21]|].
    unfold bundle_is. rewrite mutate_other; [exact Hg2 | exact Hne2].
  - eexists _, _. split; [apply Load_in_bounds; [exact Hg3 | exact Hn]|].
    apply lookup_insert_eq.
Qed.

Lemma LoadGrpcRootCertificate_fresh_copy_witness :
  bundle_is Demo.certs Demo.data Demo.s1 ∧ N.to_nat 4 ≤ length Demo.data
  ∧ ∃ h1 σ1 h2 σ2 s,
      LoadGrpcRootCertificate Demo.certs 4 Demo.s1 = Some (h1, σ1)
      ∧ LoadGrpcRootCertificate Demo.certs 4 σ1 = Some (h2, σ2)
      ∧ h1 ≠ Demo.certs ∧ h2 ≠ Demo.certs ∧ h1 ≠ h2
      ∧ string_chars σ2 h1 = Some s ∧ string_chars σ2 h2 = Some s
      ∧ (string_chars (mutate h1 (<[0 := x58]>) σ2) h1 = Some (<[0 := x58]> s)
         ∧ string_chars (mutate h1 (<[0 := x58]>) σ2) h2 = Some s
         ∧ bundle_is Demo.certs Demo.data (mutate h1 (<[0 := x58]>) σ2))
      ∧ (string_chars (mutate h2 (<[0 := x58]>) σ2) h2 = Some (<[0 := x58]> s)
         ∧ string_chars (mutate h2 (<[0 := x58]>) σ2) h1 = Some s
         ∧ bundle_is Demo.certs Demo.data (mutate h2 (<[0 := x58]>) σ2))
      ∧ ∃ h3 σ4,
          LoadGrpcRootCertificate Demo.certs 4 (mutate h1 (<[0 := x58]>) σ2)
          = Some (h3, σ4)
          ∧ string_chars σ4 h3 = Some s.
Proof.
  assert (H1 : bundle_is Demo.certs Demo.data Demo.s1) by reflexivity.
  assert (H2 : N.to_nat 4 ≤ length Demo.data) by (vm_compute; lia).
  split; [exact H1|]. split; [exact H2|].
  exact (LoadGrpcRootCertificate_fresh_copy
           Demo.certs 4 Demo.s1 Demo.data (<[0 := x58]>) H1 H2).
Defined.

(** Writing the first byte of the first of two returned strings, run on the
    demonstration process. *)
Example fresh_copy_demo :
  (LoadGrpcRootCertificate Demo.certs 4 Demo.s0 ≫= λ '(h1, σ1),
   LoadGrpcRootCertificate Demo.certs 4 σ1 ≫= λ '(h2, σ2),
   let σ3 := mutate h1 (<[0 := x58]>) σ2 in
   Some (string_chars σ3 h1, string_chars σ3 h2, string_chars σ3 Demo.certs))
  = Some (Some [x58; x00; xff; x0a], Some Demo.data, Some Demo.data).
Proof. vm_compute. reflexivity. Qed.

(** C6. A call has no effect on the state it starts in: it logs no input or
    output, and the state it ends in is the state it started in together
    with the returned string, whose address was not in use.  In particular
    the static array is as it was. *)
Theorem LoadGrpcRootCertificate_no_side_effect
    (g : positive) (size : N) (σ : process) (data : list byte) :
  bundle_is g data σ → N.to_nat size ≤ length data →
  ∃ h σ', LoadGrpcRootCertificate g size σ = Some (h, σ')
          ∧ mem σ !! h = None
          ∧ Process (delete h (mem σ')) (io_log σ') = σ
          ∧ io_log σ' = io_log σ
          ∧ (∀ a o, mem σ !! a = Some o → mem σ' !! a = Some o)
          ∧ bundle_is g data σ'.
Proof.
  intros Hg Hn.
  pose proof (Load_in_bounds g size σ data Hg Hn) as E.
  eexists _, _. split; [exact E|].
  split; [apply fresh_not_live|].
  split; [|split; [reflexivity|split]].
  - destruct σ as [m io]. simpl.
    rewrite delete_insert_id; [reflexivity | apply fresh_not_live].
  - intros a o Ha. exact (proj2 (Load_frame g size _ _ _ _ _ E Ha)).
  - exact (proj2 (Load_frame g size _ _ _ _ _ E Hg)).
Qed.

Lemma LoadGrpcRootCertificate_no_side_effect_witness :
  bundle_is Demo.certs Demo.data Demo.s1 ∧ N.to_nat 4 ≤ length Demo.data
  ∧ ∃ h σ', LoadGrpcRootCertificate Demo.certs 4 Demo.s1 = Some (h, σ')
            ∧ mem Demo.s1 !! h = None
            ∧ Process (delete h (mem σ')) (io_log σ') = Demo.s1
            ∧ io_log σ' = io_log Demo.s1
            ∧ (∀ a o, mem Demo.s1 !! a = Some o → mem σ' !! a = Some o)
            ∧ bundle_is Demo.certs Demo.data σ'.
Proof.
  assert (H1 : bundle_is Demo.certs Demo.data Demo.s1) by reflexivity.
  assert (H2 : N.to_nat 4 ≤ length Demo.data) by (vm_compute; lia).
  split; [exact H1|]. split; [exact H2|].
  exact (LoadGrpcRootCertificate_no_side_effect
           Demo.certs 4 Demo.s1 Demo.data H1 H2).
Defined.

(** C7. An empty trust store: when the static array has no bytes (and the
    length constant is its length, zero), a call returns the empty string. *)
Theorem LoadGrpcRootCertificate_empty
    (g : positive) (size : N) (σ : process) (data : list byte) :
  bundle_ok g size data σ → length data = 0 →
  size = 0%N
  ∧ ∃ h σ', LoadGrpcRootCertificate g size σ = Some (h, σ')
            ∧ string_chars σ' h = Some [].
Proof.
  intros [Hg Hn]%bundle_ok_in_bounds Hz. split; [lia|].
  eexists _, _. split; [apply Load_in_bounds; [eassumption | lia]|].
  unfold string_chars. simpl. rewrite lookup_insert_eq.
  destruct data; [|discriminate]. rewrite take_nil. reflexivity.
Qed.

Lemma LoadGrpcRootCertificate_empty_witness :
  bundle_ok Demo.certs 0 [] Demo.empty ∧ length (@nil byte) = 0
  ∧ 0%N = 0%N
  ∧ ∃ h σ', LoadGrpcRootCertificate Demo.certs 0 Demo.empty = Some (h, σ')
            ∧ string_chars σ' h = Some [].
Proof.
  assert (H1 : bundle_ok Demo.certs 0 [] Demo.empty) by (split; reflexivity).
  assert (H2 : length (@nil byte) = 0) by reflexivity.
  split; [exact H1|]. split; [exact H2|].
  exact (LoadGrpcRootCertificate_empty Demo.certs 0 Demo.empty [] H1 H2).
Defined.

(** C10. The string is built from a pointer and a count, so nothing in the
    copy looks at the bytes: the result has [grpc_root_certificates_size]
    bytes whatever their values, and position [i] of the result holds the
    byte of position [i] of the array.  That holds for a zero byte as for
    any other, and the [char] read from the result has the bit pattern of
    the [unsigned char] read from the array, also for values from [0x80]
    on, whether [char] is signed or not. *)
Theorem LoadGrpcRootCertificate_preserves_bytes
    (char_is_signed : bool) (g : positive) (size : N) (σ : process)
    (data : list byte) :
  bundle_is g data σ → N.to_nat size ≤ length data →
  ∃ h σ' s,
    LoadGrpcRootCertificate g size σ = Some (h, σ')
    ∧ string_chars σ' h = Some s
    ∧ length s = N.to_nat size
    ∧ ∀ i, i < N.to_nat size →
        ∃ b, data !! i = Some b ∧ s !! i = Some b
             ∧ load char_is_signed (mem σ) (ptr_add (array_to_pointer g) i)
               = Some (CharRep.uchar_value b)
             ∧ load char_is_signed (mem σ') (ptr_add (@Ptr t_char h 0) i)
               = Some (CharRep.char_value char_is_signed b)
             ∧ CharRep.bit_pattern (CharRep.char_value char_is_signed b)
               = CharRep.uchar_value b.
Proof.
  intros Hg Hn.
  pose proof (Load_in_bounds g size σ data Hg Hn) as E.
  eexists _, _, _. split; [exact E|].
  split; [apply lookup_insert_eq|].
  split; [rewrite length_take; lia|].
  intros i Hi.
  destruct (lookup_lt_is_Some_2 data i) as [b Hb]; [lia|].
  assert (Hs : take (N.to_nat size) data !! i = Some b).
  { rewrite lookup_take. case_decide; [exact Hb | lia]. }
  exists b. split; [exact Hb|]. split; [exact Hs|].
  split; [exact (load_uchar_at _ _ _ _ _ _ Hg Hb)|].
  split; [|apply char_value_bit_pattern].
  apply (load_char_at _ _ _ (take (N.to_nat size) data)); [|exact Hs].
  simpl. apply lookup_insert_eq.
Qed.

Lemma LoadGrpcRootCertificate_preserves_bytes_witness :
  bundle_is Demo.certs Demo.data Demo.s0 ∧ N.to_nat 4 ≤ length Demo.data
  ∧ ∃ h σ' s,
      LoadGrpcRootCertificate Demo.certs 4 Demo.s0 = Some (h, σ')
      ∧ string_chars σ' h = Some s
      ∧ length s = N.to_nat 4
      ∧ ∀ i, i < N.to_nat 4 →
          ∃ b, Demo.data !! i = Some b ∧ s !! i = Some b
               ∧ load true (mem Demo.s0) (ptr_add (array_to_pointer Demo.certs) i)
                 = Some (CharRep.uchar_value b)
               ∧ load true (mem σ') (ptr_add (@Ptr t_char h 0) i)
                 = Some (CharRep.char_value true b)
               ∧ CharRep.bit_pattern (CharRep.char_value true b)
                 = CharRep.uchar_value b.
Proof.
  assert (H1 : bundle_is Demo.certs Demo.data Demo.s0) by reflexivity.
  assert (H2 : N.to_nat 4 ≤ length Demo.data) by (vm_compute; lia).
  split; [exact H1|]. split; [exact H2|].
  exact (LoadGrpcRootCertificate_preserves_bytes
           true Demo.certs 4 Demo.s0 Demo.data H1 H2).
Defined.

(** The zero byte at position 1 and the byte [0xff] at position 2 of the
    demonstration array, as [char] values of the returned string. *)
Example preserves_bytes_demo :
  (LoadGrpcRootCertificate Demo.certs 4 Demo.s0 ≫= λ '(h, σ'),
   Some (length <$> string_chars σ' h,
         load true (mem σ') (ptr_add (@Ptr t_char h 0) 1),
         load true (mem σ') (ptr_add (@Ptr t_char h 0) 2),
         load false (mem σ') (ptr_add (@Ptr t_char h 0) 2),
         load true (mem Demo.s0) (ptr_add (array_to_pointer Demo.certs) 2)))
  = Some (Some 4, Some 0%Z, Some (-1)%Z, Some 255%Z, Some 255%Z).
Proof. vm_compute. reflexivity. Qed.

(** ** The invariant of the embedded data *)

Lemma perform_bundle_ok (g : positive) (size : N) (a : action)
    (σ : process) (data : list byte) :
  bundle_ok g size data σ → respects_const g a →
  ∃ σ', perform g size a σ = Some σ' ∧ bundle_ok g size data σ'.
Proof.
  intros Hok Ha. pose proof Hok as [Hg Hn]%bundle_ok_in_bounds.
  destruct Hok as [_ Hlen]. destruct a as [|a f|e]; simpl.
  - assert (Hle : N.to_nat size ≤ length data) by lia.
    pose proof (Load_in_bounds g size σ data Hg Hle) as E. rewrite E. simpl.
    eexists. split; [reflexivity|]. split; [|exact Hlen].
    exact (proj2 (Load_frame g size _ _ _ _ _ E Hg)).
  - simpl in Ha. case_decide; [contradiction|].
    eexists. split; [reflexivity|]. split; [|exact Hlen].
    unfold bundle_is. rewrite mutate_other; [exact Hg | exact Ha].
  - eexists. split; [reflexivity|]. split; [exact Hg | exact Hlen].
Qed.

Lemma run_bundle_ok (g : positive) (size : N) (acts : list action)
    (σ : process) (data : list byte) :
  bundle_ok g size data σ → Forall (respects_const g) acts →
  ∃ σ', run g size acts σ = Some σ' ∧ bundle_ok g size data σ'.
Proof.
  intros Hok Hacts. revert σ Hok.
  induction Hacts as [|a acts Ha _ IH]; intros σ Hok; simpl.
  - eauto.
  - destruct (perform_bundle_ok g size a σ data Hok Ha) as (σ1 & -> & Hok1).
    apply IH, Hok1.
Qed.

Lemma process_start_bundle_ok (g : positive) (pem : list byte)
    (others : gmap positive (list byte)) :
  bundle_ok g (image_size (generate_bundle pem)) pem
    (process_start g (generate_bundle pem) others).
Proof. split; [apply lookup_insert_eq | reflexivity]. Qed.

(** C8. The length constant the generator writes is the byte length of the
    array it writes, and that stays so during the life of the process:
    after any number of calls of the accessor, writes to other objects, and
    input or output, the array still holds the generated bytes and the
    constant is still their count. *)
Theorem embedded_bundle_consistent
    (g : positive) (pem : list byte) (others : gmap positive (list byte))
    (acts : list action) :
  Forall (respects_const g) acts →
  image_size (generate_bundle pem)
  = N.of_nat (length (image_data (generate_bundle pem)))
  ∧ ∀ k, ∃ σ',
      run g (image_size (generate_bundle pem)) (take k acts)
        (process_start g (generate_bundle pem) others) = Some σ'
      ∧ mem σ' !! g = Some (image_data (generate_bundle pem))
      ∧ N.of_nat (length (image_data (generate_bundle pem)))
        = image_size (generate_bundle pem).
Proof.
  intros Hacts. split; [reflexivity|]. intros k.
  destruct (run_bundle_ok g (image_size (generate_bundle pem)) (take k acts)
              (process_start g (generate_bundle pem) others) pem)
    as (σ' & Hrun & Hg & Hlen).
  - apply process_start_bundle_ok.
  - apply Forall_take, Hacts.
  - exists σ'. split; [exact Hrun|]. split; [exact Hg | exact Hlen].
Qed.

Lemma embedded_bundle_consistent_witness :
  Forall (respects_const Demo.certs)
    [act_call; act_io (ev_network [x47]); act_write 2 (<[0 := x58]>); act_call]
  ∧ image_size (generate_bundle Demo.data)
    = N.of_nat (length (image_data (generate_bundle Demo.data)))
  ∧ ∀ k, ∃ σ',
      run Demo.certs (image_size (generate_bundle Demo.data))
        (take k [act_call; act_io (ev_network [x47]);
                 act_write 2 (<[0 := x58]>); act_call])
        (process_start Demo.certs (generate_bundle Demo.data) ∅) = Some σ'
      ∧ mem σ' !! Demo.certs = Some (image_data (generate_bundle Demo.data))
      ∧ N.of_nat (length (image_data (generate_bundle Demo.data)))
        = image_size (generate_bundle Demo.data).
Proof.
  assert (H : Forall (respects_const Demo.certs)
                [act_call; act_io (ev_network [x47]);
                 act_write 2 (<[0 := x58]>); act_call]).
  { repeat constructor. simpl. discriminate. }
  split; [exact H|].
  exact (embedded_bundle_consistent Demo.certs Demo.data ∅ _ H).
Defined.

Example run_demo :
  (run Demo.certs 4
     [act_call; act_io (ev_network [x47]); act_write 2 (<[0 := x58]>); act_call]
     (process_start Demo.certs (generate_bundle Demo.data) ∅)
   ≫= λ σ', Some (mem σ' !! Demo.certs, mem σ' !! 2%positive,
                  mem σ' !! 3%positive, io_log σ'))
  = Some (Some Demo.data, Some [x58; x00; xff; x0a], Some Demo.data,
          [ev_network [x47]]).
Proof. vm_compute. reflexivity. Qed.

Example run_demo_write_const :
  run Demo.certs 4 [act_call; act_write Demo.certs (<[0 := x58]>)]
    (process_start Demo.certs (generate_bundle Demo.data) ∅) = None.
Proof. vm_compute. reflexivity. Qed.

(** ** Interleaved calls *)

Lemma take_copy_step (buf data : list byte) (i : nat) (b : byte) :
  take i buf = take i data → data !! i = Some b → i < length buf →
  take (S i) (<[i := b]> buf) = take (S i) data.
Proof.
  intros Ht Hb Hi.
  rewrite (take_S_r data i b Hb).
  rewrite (take_S_r (<[i := b]> buf) i b) by (apply list_lookup_insert_eq, Hi).
  rewrite take_insert_ge by lia. rewrite Ht. reflexivity.
Qed.

Lemma thread_ok_live (g : positive) (size : N) (data : list byte)
    (m : gmap positive (list byte)) (t : thread) (h : positive) :
  thread_ok g size data m t → buffer_of t = Some h →
  h ≠ g ∧ ∃ o, m !! h = Some o.
Proof.
  destruct t as [|h' i|h']; simpl; [discriminate| |].
  - intros (Hne & _ & buf & Hb & _) [= <-]. eauto.
  - intros (Hne & Hb) [= <-]. eauto.
Qed.

Lemma thread_ok_frame (g : positive) (size : N) (data : list byte)
    (m m' : gmap positive (list byte)) (t : thread) :
  thread_ok g size data m t →
  (∀ h, buffer_of t = Some h → m' !! h = m !! h) →
  thread_ok g size data m' t.
Proof.
  destruct t as [|h i|h]; simpl; [tauto| |].
  - intros (Hne & Hi & buf & Hb & Hl & Ht) Hsame.
    split; [exact Hne|]. split; [exact Hi|]. exists buf.
    rewrite Hsame by reflexivity. auto.
  - intros (Hne & Hb) Hsame. rewrite Hsame by reflexivity. auto.
Qed.

Section Interleaving.

Variable g : positive.
Variable size : N.
Variable data : list byte.
Hypothesis in_bounds : N.to_nat size ≤ length data.

Local Abbreviation Inv := (interleaving_inv g size data).
Local Abbreviation ok := (thread_ok g size data).
Local Arguments Nat.min : simpl never.

(** A step of one thread, seen from that thread and from the others. *)
Lemma thread_step_ok (t : thread) (σ : process) :
  mem σ !! g = Some data → ok (mem σ) t →
  ∃ t' σ',
    thread_step g size t σ = Some (t', σ')
    ∧ mem σ' !! g = Some data
    ∧ io_log σ' = io_log σ
    ∧ ok (mem σ') t'
    ∧ progress size t' = (S (progress size t)) `min` (N.to_nat size + 2)
    ∧ (∀ a o, mem σ !! a = Some o → buffer_of t ≠ Some a →
              mem σ' !! a = Some o)
    ∧ (buffer_of t' = buffer_of t
       ∨ buffer_of t = None
         ∧ ∃ h, buffer_of t' = Some h ∧ mem σ !! h = None).
Proof.
  intros Hg Hok. destruct t as [|h i|h]; simpl in *.
  - eexists _, _. split; [reflexivity|]. simpl.
    pose proof (fresh_neq_live _ _ _ Hg) as Hne.
    split; [rewrite lookup_insert_ne; [exact Hg | exact Hne]|].
    split; [reflexivity|].
    split.
    { split; [exact Hne|]. split; [lia|]. eexists.
      split; [apply lookup_insert_eq|].
      split; [apply length_replicate | reflexivity]. }
    split; [lia|].
    split.
    { intros a o Ha _. rewrite lookup_insert_ne; [exact Ha|].
      exact (fresh_neq_live _ _ _ Ha). }
    right. split; [reflexivity|]. eexists.
    split; [reflexivity | apply fresh_not_live].
  - destruct Hok as (Hne & Hi & buf & Hb & Hl & Ht).
    case_decide as Hlt.
    + destruct (lookup_lt_is_Some_2 data i) as [b Hd]; [lia|].
      unfold deref. simpl. rewrite Hg, Hd, Hb.
      eexists _, _. split; [reflexivity|]. simpl.
      split; [rewrite lookup_insert_ne; [exact Hg | exact Hne]|].
      split; [reflexivity|].
      split.
      { split; [exact Hne|]. split; [lia|]. eexists.
        split; [apply lookup_insert_eq|].
        split; [rewrite length_insert; exact Hl|].
        apply take_copy_step; [exact Ht | exact Hd | lia]. }
      split; [lia|].
      split; [|left; reflexivity].
      intros a o Ha Hna. rewrite lookup_insert_ne; [exact Ha | congruence].
    + eexists _, _. split; [reflexivity|]. simpl.
      split; [exact Hg|]. split; [reflexivity|].
      split.
      { split; [exact Hne|]. rewrite Hb. f_equal.
        assert (i = N.to_nat size) as -> by lia.
        rewrite <- Ht. symmetry. apply take_ge. lia. }
      split; [lia|].
      split; [auto | left; reflexivity].
  - eexists _, _. split; [reflexivity|]. simpl.
    split; [exact Hg|]. split; [reflexivity|].
    split; [exact Hok|]. split; [lia|].
    split; [auto | left; reflexivity].
Qed.

(** Whichever thread the scheduler picks, the step is defined and keeps
    the invariant; the other threads stay where they are. *)
Lemma schedule_step_inv (k : nat) (c : config) :
  Inv c → k < length (threads c) →
  ∃ c', schedule_step g size k c = Some c'
        ∧ Inv c'
        ∧ length (threads c') = length (threads c)
        ∧ io_log (shared c') = io_log (shared c)
        ∧ (∀ j, j ≠ k → threads c' !! j = threads c !! j)
        ∧ ∃ t t', threads c !! k = Some t ∧ threads c' !! k = Some t'
                  ∧ progress size t'
                    = (S (progress size t)) `min` (N.to_nat size + 2).
Proof.
  intros (Hg & Hok & Hdis) Hk.
  destruct (lookup_lt_is_Some_2 (threads c) k Hk) as [t Ht].
  destruct (thread_step_ok t (shared c) Hg (Hok k t Ht))
    as (t' & σ' & Hstep & Hg' & Hio & Hok' & Hprog & Hframe & Hbuf).
  unfold schedule_step. rewrite Ht, Hstep.
  eexists. split; [reflexivity|]. simpl.
  assert (Hother : ∀ j tj, j ≠ k → threads c !! j = Some tj →
            ∀ h, buffer_of tj = Some h →
                 buffer_of t ≠ Some h ∧ buffer_of t' ≠ Some h
                 ∧ mem σ' !! h = mem (shared c) !! h).
  { intros j tj Hjk Hj h Hh.
    destruct (thread_ok_live _ _ _ _ _ _ (Hok j tj Hj) Hh) as [_ [o Ho]].
    pose proof (Hdis j k tj t h Hjk Hj Ht Hh) as Hnt.
    split; [exact Hnt|]. split.
    - destruct Hbuf as [->|(_ & h' & -> & Hfree)]; [exact Hnt|].
      intros [= ->]. rewrite Hfree in Ho. discriminate.
    - rewrite Ho. apply Hframe; [exact Ho | exact Hnt]. }
  split; [|split; [apply length_insert|split; [exact Hio|split]]].
  - split; [exact Hg'|]. split.
    + intros j tj Hj. simpl in Hj. destruct (decide (k = j)) as [<-|Hne].
      * rewrite list_lookup_insert_eq in Hj by exact Hk.
        injection Hj as <-. exact Hok'.
      * rewrite list_lookup_insert_ne in Hj by exact Hne.
        apply (thread_ok_frame _ _ _ (mem (shared c))); [exact (Hok j tj Hj)|].
        intros h Hh. apply (Hother j tj); [congruence | exact Hj | exact Hh].
    + intros i j ti tj h Hij Hi Hj Hh. simpl in Hi, Hj.
      destruct (decide (k = i)) as [<-|Hki].
      * rewrite list_lookup_insert_eq in Hi by exact Hk. injection Hi as <-.
        rewrite list_lookup_insert_ne in Hj by exact Hij.
        intros Hh'.
        destruct (Hother j tj (not_eq_sym Hij) Hj h Hh') as (_ & Hn & _).
        contradiction.
      * rewrite list_lookup_insert_ne in Hi by exact Hki.
        destruct (decide (k = j)) as [<-|Hkj].
        -- rewrite list_lookup_insert_eq in Hj by exact Hk. injection Hj as <-.
           destruct (Hother i ti (not_eq_sym Hki) Hi h Hh) as (_ & Hn & _).
           exact Hn.
        -- rewrite list_lookup_insert_ne in Hj by exact Hkj.
           exact (Hdis i j ti tj h Hij Hi Hj Hh).
  - intros j Hj. apply list_lookup_insert_ne. congruence.
  - exists t, t'. split; [reflexivity|].
    split; [apply list_lookup_insert_eq, Hk | exact Hprog].
Qed.

End Interleaving.

Section Schedules.

Variable g : positive.
Variable size : N.
Variable data : list byte.
Hypothesis in_bounds : N.to_nat size ≤ length data.

Local Abbreviation Inv := (interleaving_inv g size data).

(** Every schedule runs to its end, whatever the interleaving, and each
    thread has then advanced by the number of its turns. *)
Lemma run_schedule_inv (sched : list nat) (c : config) :
  Inv c → Forall (λ k, k < length (threads c)) sched →
  ∃ c', run_schedule g size sched c = Some c'
        ∧ Inv c'
        ∧ length (threads c') = length (threads c)
        ∧ io_log (shared c') = io_log (shared c)
        ∧ ∀ k t, threads c !! k = Some t →
            ∃ t', threads c' !! k = Some t'
                  ∧ progress size t'
                    = (progress size t + turns k sched)
                        `min` (N.to_nat size + 2).
Proof.
  intros Hinv Hsched. revert c Hinv Hsched.
  induction sched as [|k0 rest IH]; intros c Hinv Hsched; simpl.
  - exists c. split; [reflexivity|]. split; [exact Hinv|].
    split; [reflexivity|]. split; [reflexivity|].
    intros k t Hk. exists t. split; [exact Hk|].
    assert (progress size t ≤ N.to_nat size + 2); [|lia].
    destruct Hinv as (_ & Hok & _). specialize (Hok k t Hk).
    destruct t as [|h i|h]; simpl in *; [lia| |lia].
    destruct Hok as (_ & Hi & _). lia.
  - apply Forall_cons in Hsched as [Hk0 Hrest].
    destruct (schedule_step_inv g size data in_bounds k0 c Hinv Hk0)
      as (c1 & -> & Hinv1 & Hlen1 & Hio1 & Hothers & t0 & t1 & Ht0 & Ht1 & Hp).
    destruct (IH c1 Hinv1) as (c' & Hrun & Hinv' & Hlen' & Hio' & Hprog).
    { rewrite Hlen1. exact Hrest. }
    exists c'. split; [exact Hrun|]. split; [exact Hinv'|].
    split; [congruence|]. split; [congruence|].
    intros k t Hk. case_decide as Hkk.
    + subst k0. assert (t = t0) as -> by congruence.
      destruct (Hprog k t1 Ht1) as (t' & Ht' & Hp').
      exists t'. split; [exact Ht'|]. rewrite Hp', Hp. lia.
    + rewrite <- (Hothers k) in Hk by congruence.
      destruct (Hprog k t Hk) as (t' & Ht' & Hp').
      exists t'. split; [exact Ht'|]. rewrite Hp'. lia.
Qed.

Lemma start_threads_inv (n : nat) (σ : process) :
  bundle_is g data σ → Inv (start_threads n σ).
Proof.
  intros Hg. split; [exact Hg|]. split.
  - intros k t [-> _]%lookup_replicate_1. exact I.
  - intros j k tj tk h _ [-> _]%lookup_replicate_1 _. discriminate.
Qed.

(** A thread that runs alone computes what the accessor is defined to
    return: the copy loop ends in the state of [basic_string]. *)
Lemma copy_loop_alone (m : gmap positive (list byte)) (io : list io_event)
    (h : positive) (d i : nat) (buf : list byte) :
  m !! g = Some data → h ≠ g → length buf = N.to_nat size →
  take i buf = take i data → i + d = N.to_nat size →
  run_schedule g size (replicate (S d) 0)
    (Config [copying h i] (Process (<[h := buf]> m) io))
  = Some (Config [returned h]
            (Process (<[h := take (N.to_nat size) data]> m) io)).
Proof.
  intros Hg Hne. revert i buf.
  induction d as [|d IH]; intros i buf Hl Ht Hd.
  - assert (i = N.to_nat size) as -> by lia.
    cbn [replicate run_schedule schedule_step threads shared lookup
         list_lookup thread_step].
    case_decide; [lia|]. cbn [insert list_insert].
    do 4 f_equal. rewrite <- Ht. symmetry. apply take_ge. lia.
  - destruct (lookup_lt_is_Some_2 data i) as [b Hb]; [lia|].
    change (replicate (S (S d)) 0) with (0 :: replicate (S d) 0).
    cbn [run_schedule schedule_step threads shared lookup list_lookup
         thread_step].
    case_decide; [|lia].
    unfold deref. cbn [mem io_log p_obj p_off ptr_add
                       reinterpret_cast_const_char array_to_pointer].
    rewrite lookup_insert_ne by exact Hne. rewrite Hg. cbn [Nat.add].
    rewrite Hb, lookup_insert_eq, insert_insert_eq.
    cbn [insert list_insert].
    apply IH; [rewrite length_insert; exact Hl | | lia].
    apply take_copy_step; [exact Ht | exact Hb | lia].
Qed.

Lemma thread_alone (σ : process) :
  bundle_is g data σ →
  ∃ h σ', LoadGrpcRootCertificate g size σ = Some (h, σ')
          ∧ run_schedule g size (replicate (N.to_nat size + 2) 0)
              (start_threads 1 σ)
            = Some (Config [returned h] σ').
Proof.
  intros Hg. eexists _, _.
  split; [apply (Load_in_bounds g size σ data Hg in_bounds)|].
  replace (N.to_nat size + 2) with (S (S (N.to_nat size))) by lia.
  change (replicate (S (S (N.to_nat size))) 0)
    with (0 :: replicate (S (N.to_nat size)) 0).
  cbn [run_schedule schedule_step start_threads replicate threads shared
       lookup list_lookup thread_step insert list_insert].
  apply copy_loop_alone;
    [exact Hg | exact (fresh_neq_live _ _ _ Hg) | apply length_replicate
    | reflexivity | reflexivity].
Qed.

End Schedules.

(** C9. Any number of threads (two or more, or fewer) call the accessor on
    the same storage, their steps interleaved in any order and without any
    lock.  Every schedule runs to its end without undefined behaviour; the
    static array and the log are as at the start; every call that has
    returned has returned the bytes a call made alone returns, so all
    callers see the same content; no two callers were given the same
    buffer; and a thread that was given enough turns has returned. *)
Theorem LoadGrpcRootCertificate_concurrent
    (g : positive) (size : N) (σ : process) (data : list byte)
    (n : nat) (sched : list nat) :
  bundle_is g data σ → N.to_nat size ≤ length data →
  Forall (λ k, k < n) sched →
  ∃ c s,
    run_schedule g size sched (start_threads n σ) = Some c
    ∧ (∃ h0 σ0, LoadGrpcRootCertificate g size σ = Some (h0, σ0)
                ∧ string_chars σ0 h0 = Some s)
    ∧ length (threads c) = n
    ∧ bundle_is g data (shared c)
    ∧ io_log (shared c) = io_log σ
    ∧ (∀ k h, threads c !! k = Some (returned h) →
              string_chars (shared c) h = Some s)
    ∧ (∀ j k h, j ≠ k → threads c !! j = Some (returned h) →
                threads c !! k ≠ Some (returned h))
    ∧ (∀ k, k < n → N.to_nat size + 2 ≤ turns k sched →
            ∃ h, threads c !! k = Some (returned h)).
Proof.
  intros Hg Hn Hsched.
  destruct (run_schedule_inv g size data Hn sched (start_threads n σ))
    as (c & Hrun & (Hg' & Hok & Hdis) & Hlen & Hio & Hprog).
  { apply start_threads_inv, Hg. }
  { simpl. rewrite length_replicate. exact Hsched. }
  simpl in Hlen, Hio. rewrite length_replicate in Hlen.
  exists c, (take (N.to_nat size) data).
  split; [exact Hrun|].
  split.
  { eexists _, _. split; [apply (Load_in_bounds g size σ data Hg Hn)|].
    apply lookup_insert_eq. }
  split; [exact Hlen|]. split; [exact Hg'|]. split; [exact Hio|].
  split; [|split].
  - intros k h Hk. exact (proj2 (Hok k _ Hk)).
  - intros j k h Hjk Hj Hk.
    exact (Hdis j k _ _ h Hjk Hj Hk eq_refl eq_refl).
  - intros k Hk Hturns.
    destruct (Hprog k at_call) as (t' & Ht' & Hp).
    { simpl. apply lookup_replicate_2, Hk. }
    simpl in Hp. pose proof (Hok k t' Ht') as Hokt.
    destruct t' as [|h i|h]; simpl in Hp, Hokt.
    + lia.
    + destruct Hokt as (_ & Hi & _). lia.
    + exists h. exact Ht'.
Qed.

Lemma LoadGrpcRootCertificate_concurrent_witness :
  bundle_is Demo.certs Demo.data Demo.s0 ∧ N.to_nat 2 ≤ length Demo.data
  ∧ Forall (λ k, k < 3) [0; 1; 2; 2; 1; 0; 1; 1; 0; 2; 2; 0; 1]
  ∧ ∃ c s,
      run_schedule Demo.certs 2 [0; 1; 2; 2; 1; 0; 1; 1; 0; 2; 2; 0; 1]
        (start_threads 3 Demo.s0) = Some c
      ∧ (∃ h0 σ0, LoadGrpcRootCertificate Demo.certs 2 Demo.s0 = Some (h0, σ0)
                  ∧ string_chars σ0 h0 = Some s)
      ∧ length (threads c) = 3
      ∧ bundle_is Demo.certs Demo.data (shared c)
      ∧ io_log (shared c) = io_log Demo.s0
      ∧ (∀ k h, threads c !! k = Some (returned h) →
                string_chars (shared c) h = Some s)
      ∧ (∀ j k h, j ≠ k → threads c !! j = Some (returned h) →
                  threads c !! k ≠ Some (returned h))
      ∧ (∀ k, k < 3 →
              N.to_nat 2 + 2
              ≤ turns k [0; 1; 2; 2; 1; 0; 1; 1; 0; 2; 2; 0; 1] →
              ∃ h, threads c !! k = Some (returned h)).
Proof.
  assert (H1 : bundle_is Demo.certs Demo.data Demo.s0) by reflexivity.
  assert (H2 : N.to_nat 2 ≤ length Demo.data) by (vm_compute; lia).
  assert (H3 : Forall (λ k, k < 3) [0; 1; 2; 2; 1; 0; 1; 1; 0; 2; 2; 0; 1])
    by (repeat constructor).
  split; [exact H1|]. split; [exact H2|]. split; [exact H3|].
  exact (LoadGrpcRootCertificate_concurrent
           Demo.certs 2 Demo.s0 Demo.data 3 _ H1 H2 H3).
Defined.

(** Three threads, interleaved, on the demonstration process: all three
    return, each with a buffer of its own holding the whole array. *)
Example concurrent_demo :
  (run_schedule Demo.certs 4
     [0; 1; 2; 2; 1; 0; 1; 1; 0; 2; 2; 0; 1; 0; 0; 1; 2; 2]
     (start_threads 3 Demo.s0)
   ≫= λ c, Some (threads c, (λ t, buffer_of t ≫= string_chars (shared c))
                             <$> threads c,
                 string_chars (shared c) Demo.certs))
  = Some ([returned 2; returned 3; returned 4],
          [Some Demo.data; Some Demo.data; Some Demo.data],
          Some Demo.data).
Proof. vm_compute. reflexivity. Qed.

(** With a length constant beyond the array a thread runs into undefined
    behaviour once it is scheduled past the last byte. *)
Example concurrent_demo_overrun :
  run_schedule Demo.certs 5 [0; 1; 0; 0; 0; 0; 0] (start_threads 2 Demo.s0)
  = None.
Proof. vm_compute. reflexivity. Qed.

(** ** Further properties of the accessor *)

(** X2. The call returns the whole array exactly when the length constant
    is the length of the array: a smaller constant cuts the bundle short, a
    larger one makes the call undefined. *)
Theorem LoadGrpcRootCertificate_whole_iff
    (g : positive) (size : N) (σ : process) (data : list byte) :
  bundle_is g data σ →
  (∃ h σ', LoadGrpcRootCertificate g size σ = Some (h, σ')
           ∧ string_chars σ' h = Some data)
  ↔ N.of_nat (length data) = size.
Proof.
  intros Hg. split.
  - intros (h & σ' & E & Hs).
    apply Load_result in E as (data' & Hg' & Hn & Hs').
    unfold bundle_is in Hg, Hg'. rewrite Hg in Hg'. injection Hg' as <-.
    rewrite Hs in Hs'. injection Hs' as Hd.
    apply (f_equal length) in Hd. rewrite length_take in Hd. lia.
  - intros Hlen. eexists _, _.
    split; [apply (Load_in_bounds g size σ data Hg); lia|].
    unfold string_chars. simpl. rewrite lookup_insert_eq.
    f_equal. apply take_ge. lia.
Qed.

Lemma LoadGrpcRootCertificate_whole_iff_witness :
  bundle_is Demo.certs Demo.data Demo.s1
  ∧ ((∃ h σ', LoadGrpcRootCertificate Demo.certs 3 Demo.s1 = Some (h, σ')
              ∧ string_chars σ' h = Some Demo.data)
     ↔ N.of_nat (length Demo.data) = 3%N).
Proof.
  assert (H : bundle_is Demo.certs Demo.data Demo.s1) by reflexivity.
  split; [exact H|].
  exact (LoadGrpcRootCertificate_whole_iff Demo.certs 3 Demo.s1 Demo.data H).
Defined.

(** X3. Only the first [grpc_root_certificates_size] bytes of the array
    reach the caller: the call returns that prefix, and two arrays that
    agree on it give the same string, whatever follows in them. *)
Theorem LoadGrpcRootCertificate_prefix_only
    (g : positive) (size : N) (σa σb : process) (da db : list byte) :
  bundle_is g da σa → bundle_is g db σb →
  N.to_nat size ≤ length da → N.to_nat size ≤ length db →
  take (N.to_nat size) da = take (N.to_nat size) db →
  ∃ ha σa' hb σb',
    LoadGrpcRootCertificate g size σa = Some (ha, σa')
    ∧ LoadGrpcRootCertificate g size σb = Some (hb, σb')
    ∧ string_chars σa' ha = Some (take (N.to_nat size) da)
    ∧ string_chars σb' hb = Some (take (N.to_nat size) da).
Proof.
  intros Ha Hb Hna Hnb Heq.
  eexists _, _, _, _.
  split; [apply (Load_in_bounds g size σa da Ha Hna)|].
  split; [apply (Load_in_bounds g size σb db Hb Hnb)|].
  split; [apply lookup_insert_eq|].
  rewrite Heq. apply lookup_insert_eq.
Qed.

Lemma LoadGrpcRootCertificate_prefix_only_witness :
  bundle_is Demo.certs Demo.data Demo.s0
  ∧ bundle_is Demo.certs [x2d; x00; x41] (Process {[ Demo.certs := [x2d; x00; x41] ]} [])
  ∧ N.to_nat 2 ≤ length Demo.data
  ∧ N.to_nat 2 ≤ length [x2d; x00; x41]
  ∧ take (N.to_nat 2) Demo.data = take (N.to_nat 2) [x2d; x00; x41]
  ∧ ∃ ha σa' hb σb',
      LoadGrpcRootCertificate Demo.certs 2 Demo.s0 = Some (ha, σa')
      ∧ LoadGrpcRootCertificate Demo.certs 2
          (Process {[ Demo.certs := [x2d; x00; x41] ]} []) = Some (hb, σb')
      ∧ string_chars σa' ha = Some (take (N.to_nat 2) Demo.data)
      ∧ string_chars σb' hb = Some (take (N.to_nat 2) Demo.data).
Proof.
  assert (H1 : bundle_is Demo.certs Demo.data Demo.s0) by reflexivity.
  assert (H2 : bundle_is Demo.certs [x2d; x00; x41]
                 (Process {[ Demo.certs := [x2d; x00; x41] ]} []))
    by reflexivity.
  assert (H3 : N.to_nat 2 ≤ length Demo.data) by (vm_compute; lia).
  assert (H4 : N.to_nat 2 ≤ length [x2d; x00; x41]) by (vm_compute; lia).
  assert (H5 : take (N.to_nat 2) Demo.data = take (N.to_nat 2) [x2d; x00; x41])
    by reflexivity.
  split; [exact H1|]. split; [exact H2|]. split; [exact H3|].
  split; [exact H4|]. split; [exact H5|].
  exact (LoadGrpcRootCertificate_prefix_only
           Demo.certs 2 Demo.s0 _ Demo.data [x2d; x00; x41] H1 H2 H3 H4 H5).
Defined.

(** X4. Calls in a row compose: [n] calls return [n] strings at pairwise
    different addresses, none of them the array and none in use before; at
    the end each of them holds the bytes of the range, every object that
    was live at the start is as it was, the new objects are exactly the
    returned strings, and nothing was logged. *)
Theorem load_many_distinct
    (g : positive) (size : N) (n : nat) (σ : process) (data : list byte) :
  bundle_is g data σ → N.to_nat size ≤ length data →
  ∃ hs σ',
    load_many g size n σ = Some (hs, σ')
    ∧ length hs = n
    ∧ NoDup hs
    ∧ (∀ h, h ∈ hs →
         h ≠ g ∧ mem σ !! h = None
         ∧ string_chars σ' h = Some (take (N.to_nat size) data))
    ∧ (∀ a o, mem σ !! a = Some o → mem σ' !! a = Some o)
    ∧ (∀ a, is_Some (mem σ' !! a) ↔ a ∈ hs ∨ is_Some (mem σ !! a))
    ∧ io_log σ' = io_log σ.
Proof.
  intros Hg Hn. revert σ Hg.
  induction n as [|n IH]; intros σ Hg; simpl.
  - exists [], σ. split; [reflexivity|]. split; [reflexivity|].
    split; [constructor|].
    split; [intros h Hh; inversion Hh|].
    split; [auto|]. split; [|reflexivity].
    intros a. split; [auto|]. intros [Hh|Ha]; [inversion Hh | exact Ha].
  - pose proof (Load_in_bounds g size σ data Hg Hn) as E.
    set (h := fresh (dom (mem σ))) in *.
    set (s := take (N.to_nat size) data) in *.
    set (σ1 := Process (<[h := s]> (mem σ)) (io_log σ)) in *.
    destruct (Load_frame g size _ _ _ _ _ E Hg) as [Hhg Hg1].
    assert (Hh1 : mem σ1 !! h = Some s) by apply lookup_insert_eq.
    assert (Hfree : mem σ !! h = None) by apply fresh_not_live.
    destruct (IH σ1 Hg1)
      as (hs & σ' & Hrun & Hlen & Hnd & Hnew & Hframe & Hdom & Hio).
    rewrite E, Hrun. exists (h :: hs), σ'.
    split; [reflexivity|]. split; [simpl; congruence|].
    split.
    { constructor; [|exact Hnd].
      intros Hin. destruct (Hnew h Hin) as (_ & Hnone & _).
      rewrite Hh1 in Hnone. discriminate. }
    split.
    { intros a [->|Hin]%elem_of_cons.
      - split; [exact Hhg|]. split; [exact Hfree|]. apply Hframe, Hh1.
      - destruct (Hnew a Hin) as (Hag & Hnone & Hs).
        split; [exact Hag|]. split; [|exact Hs].
        simpl in Hnone. apply lookup_insert_None in Hnone as [Hnone _].
        exact Hnone. }
    split.
    { intros a o Ha. apply Hframe. simpl.
      rewrite lookup_insert_ne; [exact Ha | exact (fresh_neq_live _ _ _ Ha)]. }
    split; [|exact Hio].
    intros a. rewrite Hdom, elem_of_cons. simpl.
    rewrite lookup_insert_is_Some'. split.
    + intros [Hin|[->|Ha]]; auto.
    + intros [[->|Hin]|Ha]; auto.
Qed.

Lemma load_many_distinct_witness :
  bundle_is Demo.certs Demo.data Demo.s1 ∧ N.to_nat 3 ≤ length Demo.data
  ∧ ∃ hs σ',
      load_many Demo.certs 3 5 Demo.s1 = Some (hs, σ')
      ∧ length hs = 5
      ∧ NoDup hs
      ∧ (∀ h, h ∈ hs →
           h ≠ Demo.certs ∧ mem Demo.s1 !! h = None
           ∧ string_chars σ' h = Some (take (N.to_nat 3) Demo.data))
      ∧ (∀ a o, mem Demo.s1 !! a = Some o → mem σ' !! a = Some o)
      ∧ (∀ a, is_Some (mem σ' !! a) ↔ a ∈ hs ∨ is_Some (mem Demo.s1 !! a))
      ∧ io_log σ' = io_log Demo.s1.
Proof.
  assert (H1 : bundle_is Demo.certs Demo.data Demo.s1) by reflexivity.
  assert (H2 : N.to_nat 3 ≤ length Demo.data) by (vm_compute; lia).
  split; [exact H1|]. split; [exact H2|].
  exact (load_many_distinct Demo.certs 3 5 Demo.s1 Demo.data H1 H2).
Defined.

Example load_many_demo :
  match load_many Demo.certs 3 3 Demo.s1 with
  | Some (hs, σ') => Some (hs, map (string_chars σ') hs, mem σ' !! 7%positive)
  | None => None
  end
  = Some ([8; 9; 10]%positive,
          [Some [x2d; x00; xff]; Some [x2d; x00; xff]; Some [x2d; x00; xff]],
          Some [x41]).
Proof. vm_compute. reflexivity. Qed.

(** X5. What the pointer conversion does to values.  Position [i] of the
    returned string, read as [char], gives the value that position [i] of
    the array gives read as [unsigned char], unless [char] is signed and the
    byte is [0x80] or above; then the [char] is that value less 256.  For
    seven-bit data such as PEM text the conversion changes no value. *)
Theorem LoadGrpcRootCertificate_char_values
    (char_is_signed : bool) (g : positive) (size : N) (σ : process)
    (data : list byte) :
  bundle_is g data σ → N.to_nat size ≤ length data →
  ∃ h σ',
    LoadGrpcRootCertificate g size σ = Some (h, σ')
    ∧ ∀ i b, i < N.to_nat size → data !! i = Some b →
        ∃ u c,
          load char_is_signed (mem σ) (ptr_add (array_to_pointer g) i) = Some u
          ∧ load char_is_signed (mem σ') (ptr_add (@Ptr t_char h 0) i) = Some c
          ∧ (c = u ↔ char_is_signed = false ∨ (u < 128)%Z)
          ∧ (c ≠ u → c = (u - 256)%Z ∧ (-128 ≤ c < 0)%Z).
Proof.
  intros Hg Hn.
  pose proof (Load_in_bounds g size σ data Hg Hn) as E.
  eexists _, _. split; [exact E|].
  intros i b Hi Hb.
  assert (Hs : take (N.to_nat size) data !! i = Some b).
  { rewrite lookup_take. case_decide; [exact Hb | lia]. }
  exists (CharRep.uchar_value b), (CharRep.char_value char_is_signed b).
  split; [exact (load_uchar_at _ _ _ _ _ _ Hg Hb)|].
  split.
  { apply (load_char_at _ _ _ (take (N.to_nat size) data)); [|exact Hs].
    simpl. apply lookup_insert_eq. }
  pose proof (uchar_value_range b) as Hr.
  unfold CharRep.char_value.
  destruct char_is_signed; simpl.
  - destruct (Z.leb_spec 128 (CharRep.uchar_value b)) as [Hge|Hlt].
    + split; [split; [lia | intros [?|?]; [discriminate | lia]]|].
      intros _. lia.
    + split; [split; [auto | reflexivity]|]. intros Hne. contradiction.
  - split; [split; [auto | reflexivity]|]. intros Hne. contradiction.
Qed.

Lemma LoadGrpcRootCertificate_char_values_witness :
  bundle_is Demo.certs Demo.data Demo.s0 ∧ N.to_nat 4 ≤ length Demo.data
  ∧ ∃ h σ',
      LoadGrpcRootCertificate Demo.certs 4 Demo.s0 = Some (h, σ')
      ∧ ∀ i b, i < N.to_nat 4 → Demo.data !! i = Some b →
          ∃ u c,
            load true (mem Demo.s0) (ptr_add (array_to_pointer Demo.certs) i)
            = Some u
            ∧ load true (mem σ') (ptr_add (@Ptr t_char h 0) i) = Some c
            ∧ (c = u ↔ true = false ∨ (u < 128)%Z)
            ∧ (c ≠ u → c = (u - 256)%Z ∧ (-128 ≤ c < 0)%Z).
Proof.
  assert (H1 : bundle_is Demo.certs Demo.data Demo.s0) by reflexivity.
  assert (H2 : N.to_nat 4 ≤ length Demo.data) by (vm_compute; lia).
  split; [exact H1|]. split; [exact H2|].
  exact (LoadGrpcRootCertificate_char_values
           true Demo.certs 4 Demo.s0 Demo.data H1 H2).
Defined.
